(** * gog-calendar: [fetch_events.py]

    A shallow embedding of [skills/gog-calendar/scripts/fetch_events.py]:
    the command builder of [fetch_events], the argument handling and the
    printing of [main], and the thread pool that [main] runs its fetches on.

    - Python [str] is [string]; [sys.argv] is a [list string] whose head is
      the script name, so the positional arguments are its tail.
    - [subprocess.run] is an oracle from the argument vector to what the call
      does: it returns a [CompletedProcess] or raises.
    - [main] is written once, as a program over the calls it makes
      ([print], [sys.exit], [executor.submit], [future.result]).  The program
      has a sequential reading ([exec]) and a small-step reading on a pool
      whose tasks complete in any order ([step]); the two are proved to
      agree. *)

From Stdlib Require Import ZArith Ascii String.
From stdpp Require Import base option list strings gmap.

Open Scope string_scope.
Open Scope list_scope.

(** ** Strings *)

Definition COLON : ascii := ":"%char.
Definition NL : string := String "010"%char "".

(** [":" in s] *)
Fixpoint contains_colon (s : string) : bool :=
  match s with
  | "" => false
  | String c s' => if Ascii.eqb c COLON then true else contains_colon s'
  end.

(** [s.split(":", 1)]: at most one split, at the leftmost colon. *)
Fixpoint split_colon_1 (s : string) : list string :=
  match s with
  | "" => [""]
  | String c s' =>
      if Ascii.eqb c COLON then [""; s']
      else match split_colon_1 s' with
           | h :: t => String c h :: t
           | [] => []
           end
  end.

(** ** The external tool *)

(** The exceptions of a run.  [subprocess.run] raises [OSError] when the
    process cannot be launched and [UnicodeDecodeError] when its output is not
    text.  [InvalidFuture] stands for the use of a handle that names no
    submitted task, which [main] never does. *)
Inductive exn : Type :=
| OSError (errno : Z)
| UnicodeDecodeError
| IndexError
| ValueError
| InvalidFuture.

Record CompletedProcess : Type := {
  returncode : Z;
  stdout : string;
  stderr : string
}.

(** What [subprocess.run(cmd, capture_output=True, text=True)] does. *)
Definition subprocess : Type := list string → exn + CompletedProcess.

(** ** [fetch_events] *)

(** The arguments of one call of [fetch_events]. *)
Record target : Type := {
  account : string;
  time_from : string;
  time_to : string;
  calendar_id : string
}.

(** Truthiness of a [str]. *)
Definition truthy (s : string) : bool :=
  match s with "" => false | _ => true end.

(** Lines 27-36: the list [cmd] after [append] and [extend]. *)
Definition fetch_cmd (t : target) : list string :=
  let cmd := ["gog"; "calendar"; "events"] in
  let cmd := if truthy (calendar_id t) then cmd ++ [calendar_id t] else cmd in
  cmd ++ ["--account"; account t;
          "--from"; time_from t;
          "--to"; time_to t;
          "--max"; "50";
          "--json"].

(** Lines 37-38: run the command and return [result.stdout]; an exception of
    [subprocess.run] passes through. *)
Definition fetch_events (run : subprocess) (t : target) : exn + string :=
  match run (fetch_cmd t) with
  | inl e => inl e
  | inr result => inr (stdout result)
  end.

(** ** Programs

    The calls [main] makes.  A future is named by its position in the
    executor's table of submitted tasks. *)

Abbreviation future := nat.

Inductive py (A : Type) : Type :=
| Return (a : A)
| Raise (e : exn)
| SysExit (code : Z)
| Print (s : string) (k : py A)
| PrintErr (s : string) (k : py A)
| Submit (t : target) (k : future → py A)
| Result (f : future) (k : string → py A).

Arguments Return {A} a.
Arguments Raise {A} e.
Arguments SysExit {A} code.
Arguments Print {A} s k.
Arguments PrintErr {A} s k.
Arguments Submit {A} t k.
Arguments Result {A} f k.

Fixpoint py_bind {A B : Type} (f : A → py B) (m : py A) : py B :=
  match m with
  | Return a => f a
  | Raise e => Raise e
  | SysExit code => SysExit code
  | Print s k => Print s (py_bind f k)
  | PrintErr s k => PrintErr s (py_bind f k)
  | Submit t k => Submit t (λ fut, py_bind f (k fut))
  | Result fut k => Result fut (λ r, py_bind f (k r))
  end.

#[global] Instance py_mret : MRet py := @Return.
#[global] Instance py_mbind : MBind py := @py_bind.

(** [print(s)] *)
Definition print (s : string) : py unit := Print s (Return ()).
(** [print(s, file=sys.stderr)] *)
Definition print_err (s : string) : py unit := PrintErr s (Return ()).
(** [sys.exit(code)] *)
Definition sys_exit {A : Type} (code : Z) : py A := SysExit code.
(** [executor.submit(fetch_events, account, time_from, time_to, calendar_id)] *)
Definition submit (t : target) : py future := Submit t Return.
(** [fut.result()] *)
Definition result (fut : future) : py string := Result fut Return.
(** [l[i]] *)
Definition item (l : list string) (i : nat) : py string :=
  match l !! i with
  | Some x => Return x
  | None => Raise IndexError
  end.

(** ** [main] *)

Definition USAGE : string :=
  "Usage: fetch_events.py <personal_account> <work_account> <from> <to> [extra_calendar_ids...]".

(** Line 65, the f-string. *)
Definition warning (extra : string) : string :=
  "Warning: skipping invalid extra calendar '" +:+ extra +:+
  "' (expected account:calendarId)".

(** Line 77, the f-string. *)
Definition extra_marker (cal_id : string) : string :=
  "===EXTRA:" +:+ cal_id +:+ "===".

(** Line 55. *)
Definition account_map (account_personal account_work : string)
    : gmap string string :=
  {[ "personal" := account_personal; "work" := account_work ]}.

(** [d.get(k, dflt)] *)
Definition dict_get (d : gmap string string) (k dflt : string) : string :=
  default dflt (d !! k).

(** Lines 63-69: the loop over [extra_calendars]; [extra_futures] is the list
    built so far. *)
Fixpoint submit_extras (accounts : gmap string string) (time_from time_to : string)
    (extra_calendars : list string) (extra_futures : list (string * future))
    : py (list (string * future)) :=
  match extra_calendars with
  | [] => mret extra_futures
  | extra :: rest =>
      if negb (contains_colon extra) then
        print_err (warning extra);;
        submit_extras accounts time_from time_to rest extra_futures
      else
        match split_colon_1 extra with
        | [acct_key; cal_id] =>
            let account := dict_get accounts acct_key acct_key in
            fut ← submit (Build_target account time_from time_to cal_id);
            submit_extras accounts time_from time_to rest
              (extra_futures ++ [(cal_id, fut)])
        | _ => Raise ValueError
        end
  end.

(** Lines 76-78. *)
Fixpoint print_extras (extra_futures : list (string * future)) : py unit :=
  match extra_futures with
  | [] => mret ()
  | (cal_id, fut) :: rest =>
      print (extra_marker cal_id);;
      r ← result fut;
      print r;;
      print_extras rest
  end.

Definition main (argv : list string) : py unit :=
  if bool_decide (length argv < 5) then
    print_err USAGE;;
    sys_exit 1
  else
    account_personal ← item argv 1;
    account_work ← item argv 2;
    time_from ← item argv 3;
    time_to ← item argv 4;
    let extra_calendars := drop 5 argv in
    let accounts := account_map account_personal account_work in
    future_personal ← submit (Build_target account_personal time_from time_to "");
    future_work ← submit (Build_target account_work time_from time_to "");
    extra_futures ← submit_extras accounts time_from time_to extra_calendars [];
    print "===PERSONAL===";;
    r ← result future_personal;
    print r;;
    print "===WORK===";;
    r ← result future_work;
    print r;;
    print_extras extra_futures.

(** ** Sequential reading

    How a run of the interpreter ends, and what it leaves behind: the text
    written to the two streams and the tasks handed to the executor, each
    with what [fetch_events] did.

    The two streams are taken to be writable and able to encode what is
    printed, so [print] itself does not raise.  [sys_stderr] is the text that
    the calls of the script write to the error stream; the traceback that the
    interpreter adds there after an uncaught exception is not part of it. *)

Inductive outcome (A : Type) : Type :=
| Returned (a : A)
| Exited (code : Z)
| Uncaught (e : exn).

Arguments Returned {A} a.
Arguments Exited {A} code.
Arguments Uncaught {A} e.

(** The exit status of the interpreter: 0 after a normal return, the argument
    of [sys.exit], 1 after a traceback (given that the streams can be flushed
    when the interpreter exits). *)
Definition exit_status {A : Type} (o : outcome A) : Z :=
  match o with
  | Returned _ => 0
  | Exited code => code
  | Uncaught _ => 1
  end.

Record world : Type := {
  sys_stdout : string;
  sys_stderr : string;
  tasks : list (target * (exn + string))
}.

Definition boot : world :=
  {| sys_stdout := ""; sys_stderr := ""; tasks := [] |}.

Definition write_out (s : string) (w : world) : world :=
  {| sys_stdout := sys_stdout w +:+ s +:+ NL;
     sys_stderr := sys_stderr w;
     tasks := tasks w |}.

Definition write_err (s : string) (w : world) : world :=
  {| sys_stdout := sys_stdout w;
     sys_stderr := sys_stderr w +:+ s +:+ NL;
     tasks := tasks w |}.

Definition add_task (t : target) (r : exn + string) (w : world) : world :=
  {| sys_stdout := sys_stdout w;
     sys_stderr := sys_stderr w;
     tasks := tasks w ++ [(t, r)] |}.

Fixpoint exec {A : Type} (run : subprocess) (p : py A) (w : world)
    : outcome A * world :=
  match p with
  | Return a => (Returned a, w)
  | Raise e => (Uncaught e, w)
  | SysExit code => (Exited code, w)
  | Print s k => exec run k (write_out s w)
  | PrintErr s k => exec run k (write_err s w)
  | Submit t k =>
      exec run (k (length (tasks w))) (add_task t (fetch_events run t) w)
  | Result fut k =>
      match tasks w !! fut with
      | Some (_, inr s) => exec run (k s) w
      | Some (_, inl e) => (Uncaught e, w)
      | None => (Uncaught InvalidFuture, w)
      end
  end.

(** The subprocesses launched: one per submitted task, in submission order. *)
Definition launched (w : world) : list (list string) :=
  (λ tr, fetch_cmd tr.1) <$> tasks w.

(** One run of the script. *)
Definition script (run : subprocess) (argv : list string) : outcome unit * world :=
  exec run (main argv) boot.

(** The positional arguments: [sys.argv] without the script name. *)
Definition positional (argv : list string) : list string := tail argv.

(** ** The thread pool

    [with ThreadPoolExecutor() as executor]: the main thread runs the program;
    a submitted task is pending until some worker has run [fetch_events] for
    it, which may happen at any moment after the submission, in any order
    among the pending tasks.  [fut.result()] can only proceed when its task
    is done.  Leaving the block waits for every task. *)

Record pool : Type := Pool {
  main_thread : py unit;
  out : string;
  err : string;
  futures : list (target * option (exn + string))
}.

Inductive step (run : subprocess) : pool → pool → Prop :=
| step_print s k o e fs :
    step run (Pool (Print s k) o e fs) (Pool k (o +:+ s +:+ NL) e fs)
| step_print_err s k o e fs :
    step run (Pool (PrintErr s k) o e fs) (Pool k o (e +:+ s +:+ NL) fs)
| step_submit t k o e fs :
    step run (Pool (Submit t k) o e fs)
             (Pool (k (length fs)) o e (fs ++ [(t, None)]))
| step_result_value fut k o e fs t s :
    fs !! fut = Some (t, Some (inr s)) →
    step run (Pool (Result fut k) o e fs) (Pool (k s) o e fs)
| step_result_raise fut k o e fs t e0 :
    fs !! fut = Some (t, Some (inl e0)) →
    step run (Pool (Result fut k) o e fs) (Pool (Raise e0) o e fs)
| step_result_dangling fut k o e fs :
    fs !! fut = None →
    step run (Pool (Result fut k) o e fs) (Pool (Raise InvalidFuture) o e fs)
| step_worker i t p o e fs :
    fs !! i = Some (t, None) →
    step run (Pool p o e fs)
             (Pool p o e (<[i := (t, Some (fetch_events run t))]> fs)).

Definition start (argv : list string) : pool := Pool (main argv) "" "" [].

(** The main thread has nothing left to do. *)
Definition finished (p : py unit) : option (outcome unit) :=
  match p with
  | Return a => Some (Returned a)
  | Raise e => Some (Uncaught e)
  | SysExit code => Some (Exited code)
  | _ => None
  end.

(** No task is pending. *)
Definition settled (fs : list (target * option (exn + string))) : Prop :=
  Forall (λ tf, is_Some tf.2) fs.

(** The process has ended with outcome [o]. *)
Definition terminal (c : pool) (o : outcome unit) : Prop :=
  finished (main_thread c) = Some o ∧ settled (futures c).

(** The pool seen once every task is done. *)
Definition done_task (tr : target * (exn + string)) : target * option (exn + string) :=
  (tr.1, Some tr.2).

Definition ends_as (c : pool) (w : world) : Prop :=
  out c = sys_stdout w ∧ err c = sys_stderr w ∧ futures c = done_task <$> tasks w.

(** ** The shape of a run

    The vocabulary the statements below are written in. *)

(** The two halves that line 67 unpacks. *)
Definition acct_key (extra : string) : string :=
  default "" (split_colon_1 extra !! 0).
Definition cal_id (extra : string) : string :=
  default "" (split_colon_1 extra !! 1).

(** The specifiers that pass the test of line 64, and those that do not. *)
Definition valid (extra_calendars : list string) : list string :=
  List.filter contains_colon extra_calendars.
Definition malformed (extra_calendars : list string) : list string :=
  List.filter (λ extra, negb (contains_colon extra)) extra_calendars.

(** The task of lines 67-69 for one specifier. *)
Definition extra_target (account_personal account_work time_from time_to extra : string)
    : target :=
  let k := acct_key extra in
  Build_target (dict_get (account_map account_personal account_work) k k)
    time_from time_to (cal_id extra).

(** Every fetch of an invocation with its marker, in print order. *)
Definition labelled (account_personal account_work time_from time_to : string)
    (extra_calendars : list string) : list (string * target) :=
  ("===PERSONAL===", Build_target account_personal time_from time_to "") ::
  ("===WORK===", Build_target account_work time_from time_to "") ::
  ((λ extra, (extra_marker (cal_id extra),
              extra_target account_personal account_work time_from time_to extra))
     <$> valid extra_calendars).

(** The account an alias prefix stands for, as the specification words it. *)
Definition resolved (account_personal account_work key : string) : string :=
  if decide (key = "personal") then account_personal
  else if decide (key = "work") then account_work
  else key.

(** A marker line followed by a captured text, as two [print]s write them. *)
Definition section (marker text : string) : string :=
  marker +:+ NL +:+ text +:+ NL.

Fixpoint sections (l : list (string * string)) : string :=
  match l with
  | [] => ""
  | (marker, text) :: l' => section marker text +:+ sections l'
  end.

(** [text] is made of one section per marker, in order. *)
Definition sectioned (markers : list string) (text : string) : Prop :=
  ∃ texts, length texts = length markers ∧ text = sections (zip markers texts).

(** The warning lines of a list of specifiers. *)
Fixpoint warnings (extra_calendars : list string) : string :=
  match extra_calendars with
  | [] => ""
  | extra :: rest => warning extra +:+ NL +:+ warnings rest
  end.

(** The task was launched and its output captured. *)
Definition captures (run : subprocess) (t : target) : Prop :=
  ∃ result, run (fetch_cmd t) = inr result.

(** The captured text of a task ([""] when there is none). *)
Definition captured (run : subprocess) (t : target) : string :=
  match fetch_events run t with
  | inr text => text
  | inl _ => ""
  end.

(** A task with what [fetch_events] did for it. *)
Definition fetched (run : subprocess) (t : target) : target * (exn + string) :=
  (t, fetch_events run t).

(** Printing the sections of lines 71-78 after [text]: each marker, then the
    awaited result; the first task that raised ends the run after its
    marker. *)
Fixpoint collect (l : list (string * (exn + string))) (text : string)
    : outcome unit * string :=
  match l with
  | [] => (Returned (), text)
  | (marker, inr r) :: l' => collect l' (text +:+ section marker r)
  | (marker, inl e) :: _ => (Uncaught e, text +:+ marker +:+ NL)
  end.

(** [text] is these lines, each ended by a newline. *)
Fixpoint unlines (ls : list string) : string :=
  match ls with
  | [] => ""
  | l :: ls' => l +:+ NL +:+ unlines ls'
  end.

(** ** Tools to run the script against *)

(** [gog] is not on the PATH: every [subprocess.run] raises
    [FileNotFoundError] (errno 2). *)
Definition no_tool : subprocess := λ _, inl (OSError 2).

(** The value that follows [--account] in a command. *)
Fixpoint account_of (cmd : list string) : string :=
  match cmd with
  | [] => ""
  | a :: rest =>
      match rest with
      | b :: _ => if String.eqb a "--account" then b else account_of rest
      | [] => ""
      end
  end.

(** A stub that prints [P-DATA] for the account [personal] and [W-DATA] for
    any other, and exits with status 0. *)
Definition stub : subprocess := λ cmd,
  inr {| returncode := 0;
         stdout := if String.eqb (account_of cmd) "personal"
                   then "P-DATA" else "W-DATA";
         stderr := "" |}.

(** The same tool, had every call exited with status 0 and an empty error
    stream. *)
Definition succeeding (run : subprocess) : subprocess := λ cmd,
  match run cmd with
  | inl e => inl e
  | inr result => inr {| returncode := 0; stdout := stdout result; stderr := "" |}
  end.

(** Every result a worker has stored is what [fetch_events] returns for
    that task. *)
Definition consistent (run : subprocess)
    (fs : list (target * option (exn + string))) : Prop :=
  Forall (λ tf, ∀ r, tf.2 = Some r → r = fetch_events run tf.1) fs.

(** The world a pool state stands for once its pending tasks have run. *)
Definition settle (run : subprocess) (c : pool) : world :=
  {| sys_stdout := out c;
     sys_stderr := err c;
     tasks := (λ tf, fetched run tf.1) <$> futures c |}.

(** ** The order of the effects of a program *)

(** No path of the program reaches a [raise] of its own. *)
Fixpoint never_raises {A : Type} (p : py A) : Prop :=
  match p with
  | Return _ | SysExit _ => True
  | Raise _ => False
  | Print _ k | PrintErr _ k => never_raises k
  | Submit _ k => ∀ fut, never_raises (k fut)
  | Result _ k => ∀ r, never_raises (k r)
  end.

(** The program never writes to standard output. *)
Fixpoint no_print {A : Type} (p : py A) : Prop :=
  match p with
  | Return _ | Raise _ | SysExit _ => True
  | Print _ _ => False
  | PrintErr _ k => no_print k
  | Submit _ k => ∀ fut, no_print (k fut)
  | Result _ k => ∀ r, no_print (k r)
  end.

(** The program writes no warning and submits no task. *)
Fixpoint only_prints {A : Type} (p : py A) : Prop :=
  match p with
  | Return _ | Raise _ | SysExit _ => True
  | Print _ k => only_prints k
  | PrintErr _ _ => False
  | Submit _ _ => False
  | Result _ k => ∀ r, only_prints (k r)
  end.

(** Whatever the program writes to the error stream or submits, it does so
    before its first line on standard output. *)
Fixpoint prepares_first {A : Type} (p : py A) : Prop :=
  match p with
  | Return _ | Raise _ | SysExit _ => True
  | Print _ k => only_prints k
  | PrintErr _ k => prepares_first k
  | Submit _ k => ∀ fut, prepares_first (k fut)
  | Result _ k => ∀ r, prepares_first (k r)
  end.

(** Until the first line is on standard output the main thread is still in
    its preparing part; after it, it only prints. *)
Definition in_order (c : pool) : Prop :=
  only_prints (main_thread c) ∨ (out c = "" ∧ prepares_first (main_thread c)).

(** ** Schedules

    One turn of the pool: the main thread makes its next call, or the worker
    of task [i] finishes it.  A turn that is not possible (the main thread
    is blocked or has ended, the task is not pending) leaves the pool as it
    is. *)
Inductive turn : Type :=
| Main
| Worker (i : nat).

Definition next (run : subprocess) (c : pool) (a : turn) : pool :=
  match a with
  | Worker i =>
      match futures c !! i with
      | Some (t, None) =>
          Pool (main_thread c) (out c) (err c)
            (<[i := (t, Some (fetch_events run t))]> (futures c))
      | _ => c
      end
  | Main =>
      match main_thread c with
      | Print s k => Pool k (out c +:+ s +:+ NL) (err c) (futures c)
      | PrintErr s k => Pool k (out c) (err c +:+ s +:+ NL) (futures c)
      | Submit t k =>
          Pool (k (length (futures c))) (out c) (err c) (futures c ++ [(t, None)])
      | Result fut k =>
          match futures c !! fut with
          | Some (_, Some (inr s)) => Pool (k s) (out c) (err c) (futures c)
          | Some (_, Some (inl e)) => Pool (Raise e) (out c) (err c) (futures c)
          | Some (_, None) => c
          | None => Pool (Raise InvalidFuture) (out c) (err c) (futures c)
          end
      | _ => c
      end
  end.

(** The pool after the turns of a schedule. *)
Definition after (run : subprocess) (schedule : list turn) (c : pool) : pool :=
  foldl (next run) c schedule.

(** A tool whose calls for the account [work] cannot be launched
    ([PermissionError], errno 13) and that otherwise behaves as [stub]. *)
Definition work_down : subprocess := λ cmd,
  if String.eqb (account_of cmd) "work" then inl (OSError 13) else stub cmd.

(** * Proofs *)

(** ** Strings *)

Section strings.
Implicit Types s t u : string.

Lemma append_cons c s t : String c s +:+ t = String c (s +:+ t).
Proof. reflexivity. Qed.

Lemma append_empty_l s : "" +:+ s = s.
Proof. reflexivity. Qed.

Lemma append_assoc s t u : (s +:+ t) +:+ u = s +:+ t +:+ u.
Proof.
  induction s as [|c s IH]; [done |].
  rewrite !append_cons. by rewrite IH.
Qed.

Lemma append_empty_r s : s +:+ "" = s.
Proof.
  induction s as [|c s IH]; [done |].
  rewrite append_cons. by rewrite IH.
Qed.

Lemma length_append s t :
  String.length (s +:+ t) = String.length s + String.length t.
Proof.
  induction s as [|c s IH]; [done |].
  rewrite append_cons. simpl. by rewrite IH.
Qed.

Lemma contains_colon_append_colon s t :
  contains_colon (s +:+ String COLON t) = true.
Proof.
  induction s as [|c s IH]; [done |].
  rewrite append_cons. simpl. by destruct (Ascii.eqb c COLON).
Qed.

Lemma split_colon_1_first s t :
  contains_colon s = false →
  split_colon_1 (s +:+ String COLON t) = [s; t].
Proof.
  induction s as [|c s IH]; [done |].
  rewrite append_cons. simpl.
  destruct (Ascii.eqb c COLON); [done |].
  intros Hs. by rewrite (IH Hs).
Qed.

Lemma split_colon_1_none s :
  contains_colon s = false → split_colon_1 s = [s].
Proof.
  induction s as [|c s IH]; simpl; [done |].
  destruct (Ascii.eqb c COLON); [done |].
  intros Hs. by rewrite (IH Hs).
Qed.

Lemma contains_colon_split s :
  contains_colon s = true →
  ∃ k c, s = k +:+ String COLON c ∧ contains_colon k = false.
Proof.
  induction s as [|a s IH]; simpl; [done |].
  destruct (Ascii.eqb a COLON) eqn:Ha.
  - intros _. apply Ascii.eqb_eq in Ha as ->. by exists "", s.
  - intros (k & c & -> & Hk)%IH.
    exists (String a k), c. simpl. by rewrite Ha.
Qed.

Lemma acct_key_first s t :
  contains_colon s = false → acct_key (s +:+ String COLON t) = s.
Proof. intros Hs. unfold acct_key. by rewrite split_colon_1_first. Qed.

Lemma cal_id_first s t :
  contains_colon s = false → cal_id (s +:+ String COLON t) = t.
Proof. intros Hs. unfold cal_id. by rewrite split_colon_1_first. Qed.

Lemma split_colon_1_valid s :
  contains_colon s = true → split_colon_1 s = [acct_key s; cal_id s].
Proof.
  intros (k & c & -> & Hk)%contains_colon_split.
  by rewrite acct_key_first, cal_id_first, split_colon_1_first.
Qed.
End strings.

(** ** The alias map *)

Lemma dict_get_account_map account_personal account_work key :
  dict_get (account_map account_personal account_work) key key
  = resolved account_personal account_work key.
Proof.
  unfold dict_get, account_map, resolved.
  destruct (decide (key = "personal")) as [->|Hp].
  { by rewrite lookup_insert_eq. }
  rewrite lookup_insert_ne by done.
  destruct (decide (key = "work")) as [->|Hw].
  { by rewrite lookup_singleton_eq. }
  by rewrite lookup_singleton_ne.
Qed.

(** ** Sequential runs *)

Section exec.
Context (run : subprocess).

Lemma exec_bind {A B : Type} (m : py A) (f : A → py B) (w : world) :
  exec run (m ≫= f) w =
  match exec run m w with
  | (Returned a, w') => exec run (f a) w'
  | (Exited code, w') => (Exited code, w')
  | (Uncaught e, w') => (Uncaught e, w')
  end.
Proof.
  revert w. induction m as [a|e|code|s k IH|s k IH|t k IH|fut k IH];
    intros w; simpl; try done.
  destruct (_ !! _) as [[t [e|s]]|]; [done | apply IH | done].
Qed.
End exec.

Section script.
Context (run : subprocess).
Context (account_personal account_work time_from time_to : string).

Local Abbreviation extra_task :=
  (extra_target account_personal account_work time_from time_to).

Lemma exec_submit_extras extra_calendars extra_futures w :
  exec run
    (submit_extras (account_map account_personal account_work)
       time_from time_to extra_calendars extra_futures) w
  = (Returned
       (extra_futures ++
        zip (cal_id <$> valid extra_calendars)
            (seq (length (tasks w)) (length (valid extra_calendars)))),
     {| sys_stdout := sys_stdout w;
        sys_stderr := sys_stderr w +:+ warnings (malformed extra_calendars);
        tasks := tasks w ++
                 ((λ extra, fetched run (extra_task extra)) <$> valid extra_calendars) |}).
Proof.
  revert extra_futures w.
  induction extra_calendars as [|extra rest IH]; intros extra_futures w.
  { destruct w. simpl. by rewrite !app_nil_r, append_empty_r. }
  unfold valid, malformed in *. simpl.
  destruct (contains_colon extra) eqn:Hextra; simpl.
  - rewrite (split_colon_1_valid _ Hextra). simpl.
    rewrite IH. simpl. rewrite length_app. simpl.
    rewrite Nat.add_1_r, <-!app_assoc. done.
  - rewrite IH. simpl. by rewrite !append_assoc.
Qed.

Lemma exec_print_extras
    (items : list (string * (target * (exn + string)))) pre w :
  tasks w = pre ++ (snd <$> items) →
  exec run
    (print_extras (zip (fst <$> items) (seq (length pre) (length items)))) w
  = let ot := collect ((λ it, (extra_marker it.1, it.2.2)) <$> items)
                (sys_stdout w) in
    (ot.1, {| sys_stdout := ot.2; sys_stderr := sys_stderr w; tasks := tasks w |}).
Proof.
  revert pre w. induction items as [|[c [t r]] items IH]; intros pre w Hw.
  { by destruct w. }
  simpl in Hw.
  assert (tasks w !! length pre = Some (t, r)) as Hfut.
  { rewrite Hw. by apply list_lookup_middle. }
  simpl. rewrite Hfut. destruct r as [e|s]; [done |].
  simpl. specialize (IH (pre ++ [(t, inr s)])).
  rewrite length_app, Nat.add_1_r in IH. rewrite IH.
  - simpl. unfold section. by rewrite !append_assoc.
  - simpl. by rewrite Hw, <-app_assoc.
Qed.
(** What a run with at least four positional arguments does. *)
Lemma script_run script_name extra_calendars :
  script run
    (script_name :: account_personal :: account_work :: time_from :: time_to
       :: extra_calendars)
  = let fetches :=
      labelled account_personal account_work time_from time_to extra_calendars in
    let ot := collect ((λ mt, (mt.1, fetch_events run mt.2)) <$> fetches) "" in
    (ot.1,
     {| sys_stdout := ot.2;
        sys_stderr := warnings (malformed extra_calendars);
        tasks := (λ mt, fetched run mt.2) <$> fetches |}).
Proof.
  unfold script, main.
  rewrite bool_decide_eq_false_2 by (simpl; lia).
  simpl. rewrite exec_bind, exec_submit_extras. simpl. rewrite drop_0.
  set (items := (λ extra, (cal_id extra, fetched run (extra_task extra)))
                  <$> valid extra_calendars).
  replace (cal_id <$> valid extra_calendars) with (items.*1)
    by (subst items; by rewrite <-list_fmap_compose).
  replace (length (valid extra_calendars)) with (length items)
    by (subst items; by rewrite length_fmap).
  replace ((λ extra, fetched run (extra_task extra)) <$> valid extra_calendars)
    with (items.*2) by (subst items; by rewrite <-list_fmap_compose).
  rewrite <-!list_fmap_compose.
  replace ((λ mt : string * target, (mt.1, fetch_events run mt.2)) ∘ _
             <$> valid extra_calendars)
    with ((λ it : string * (target * (exn + string)),
             (extra_marker it.1, it.2.2)) <$> items)
    by (subst items; by rewrite <-list_fmap_compose).
  replace ((λ mt : string * target, fetched run mt.2) ∘ _
             <$> valid extra_calendars)
    with (items.*2) by (subst items; by rewrite <-list_fmap_compose).
  unfold fetched at 1 2. simpl.
  destruct (fetch_events run (Build_target account_personal _ _ _)) as [e|p].
  { unfold write_out. simpl. by rewrite !append_empty_l. }
  destruct (fetch_events run (Build_target account_work _ _ _)) as [e|q].
  { unfold write_out, section. simpl.
    by rewrite !append_empty_l, !append_assoc. }
  etrans.
  { by apply (exec_print_extras items
      [(Build_target account_personal time_from time_to "", inr p);
       (Build_target account_work time_from time_to "", inr q)]). }
  simpl. unfold section. by rewrite !append_empty_l, !append_assoc.
Qed.
End script.

(** ** The thread pool *)

Section pool.
Context (run : subprocess).

Lemma step_settle c c' :
  step run c c' →
  consistent run (futures c) →
  consistent run (futures c') ∧
  exec run (main_thread c') (settle run c')
  = exec run (main_thread c) (settle run c).
Proof.
  unfold consistent, settle.
  destruct 1 as [s k o e fs|s k o e fs|t k o e fs|fut k o e fs t s Hfut
                |fut k o e fs t e0 Hfut|fut k o e fs Hfut|i t p o e fs Hi];
    simpl; intros Hfs.
  - done.
  - done.
  - split.
    + apply Forall_app. split; [done |]. by apply Forall_singleton.
    + by rewrite length_fmap, fmap_app.
  - split; [done |].
    pose proof (Forall_lookup_1 _ _ _ _ Hfs Hfut (inr s) eq_refl) as Hr.
    rewrite list_lookup_fmap, Hfut. simpl in *. by rewrite <-Hr.
  - split; [done |].
    pose proof (Forall_lookup_1 _ _ _ _ Hfs Hfut (inl e0) eq_refl) as Hr.
    rewrite list_lookup_fmap, Hfut. simpl in *. by rewrite <-Hr.
  - split; [done |].
    by rewrite list_lookup_fmap, Hfut.
  - split.
    + apply Forall_insert; [done |]. simpl. by intros r [= <-].
    + rewrite list_fmap_insert. simpl.
      rewrite list_insert_id; [done |].
      by rewrite list_lookup_fmap, Hi.
Qed.

Lemma steps_settle c c' :
  rtc (step run) c c' →
  consistent run (futures c) →
  consistent run (futures c') ∧
  exec run (main_thread c') (settle run c')
  = exec run (main_thread c) (settle run c).
Proof.
  induction 1 as [c|c c1 c' Hstep _ IH]; intros Hc; [done |].
  destruct (step_settle _ _ Hstep Hc) as [Hc1 Heq].
  destruct (IH Hc1) as [Hc' Heq']. split; [done | congruence].
Qed.

Lemma terminal_settle c o :
  terminal c o →
  consistent run (futures c) →
  exec run (main_thread c) (settle run c) = (o, settle run c) ∧
  futures c = done_task <$> tasks (settle run c).
Proof.
  intros [Hfin Hset] Hc. split.
  - destruct (main_thread c); simpl in *; by simplify_eq.
  - unfold settle. simpl. rewrite <-list_fmap_compose.
    unfold settled, consistent in *.
    induction (futures c) as [|[t r] fs IH]; [done |].
    apply Forall_cons in Hset as [[r' ?] Hset].
    apply Forall_cons in Hc as [Hr Hc]. simpl in *. subst r.
    f_equal; [| by apply IH].
    unfold done_task, fetched. simpl. by rewrite <-(Hr r' eq_refl).
Qed.

(** Whatever the order in which the tasks complete, the process ends the
    way the sequential reading says. *)
Lemma pool_ends argv c o :
  rtc (step run) (start argv) c →
  terminal c o →
  o = (script run argv).1 ∧ ends_as c (script run argv).2.
Proof.
  intros Hsteps Hterm.
  destruct (steps_settle _ _ Hsteps) as [Hc Heq]; [by constructor |].
  destruct (terminal_settle _ _ Hterm Hc) as [Hexec Hfs].
  unfold script. change boot with (settle run (start argv)).
  change (main argv) with (main_thread (start argv)).
  rewrite <-Heq, Hexec. by repeat split.
Qed.
(** Two finished runs on the same command line and the same tool end alike. *)
Lemma two_runs_agree argv c1 o1 c2 o2 :
  rtc (step run) (start argv) c1 → terminal c1 o1 →
  rtc (step run) (start argv) c2 → terminal c2 o2 →
  o1 = o2 ∧ out c1 = out c2 ∧ err c1 = err c2 ∧ futures c1 = futures c2.
Proof.
  intros Hsteps1 Hterm1 Hsteps2 Hterm2.
  destruct (pool_ends argv c1 o1 Hsteps1 Hterm1) as (-> & Hout1 & Herr1 & Hfs1).
  destruct (pool_ends argv c2 o2 Hsteps2 Hterm2) as (-> & Hout2 & Herr2 & Hfs2).
  repeat split; congruence.
Qed.

(** The workers can always finish what is pending. *)
Lemma workers_settle p o e ready pending :
  ∃ pending',
    rtc (step run) (Pool p o e (ready ++ pending))
                   (Pool p o e (ready ++ pending')) ∧
    settled pending'.
Proof.
  revert ready. induction pending as [|[t [r|]] pending IH]; intros ready.
  - exists []. split; [done | constructor].
  - destruct (IH (ready ++ [(t, Some r)])) as (pending' & Hsteps & Hset).
    exists ((t, Some r) :: pending').
    rewrite <-!app_assoc in Hsteps. split; [done |].
    constructor; [by eexists | done].
  - destruct (IH (ready ++ [(t, Some (fetch_events run t))]))
      as (pending' & Hsteps & Hset).
    exists ((t, Some (fetch_events run t)) :: pending').
    rewrite <-!app_assoc in Hsteps. simpl in Hsteps. split.
    + eapply rtc_l; [| exact Hsteps].
      replace (ready ++ (t, Some (fetch_events run t)) :: pending)
        with (<[length ready := (t, Some (fetch_events run t))]>
                (ready ++ (t, None) :: pending)).
      * apply step_worker. by apply list_lookup_middle.
      * by rewrite insert_app_r_alt, Nat.sub_diag.
    + constructor; [by eexists | done].
Qed.

(** Once nothing is pending the main thread runs to its end. *)
Lemma main_thread_finishes p o e fs :
  settled fs →
  ∃ c' oc, rtc (step run) (Pool p o e fs) c' ∧ terminal c' oc.
Proof.
  revert o e fs.
  induction p as [a|e0|code|s k IH|s k IH|t k IH|fut k IH]; intros o e fs Hfs.
  - by exists (Pool (Return a) o e fs), (Returned a).
  - by exists (Pool (Raise e0) o e fs), (Uncaught e0).
  - by exists (Pool (SysExit code) o e fs), (Exited code).
  - destruct (IH (o +:+ s +:+ NL) e fs Hfs) as (c' & oc & Hsteps & Hterm).
    exists c', oc. split; [| done]. eapply rtc_l; [constructor | done].
  - destruct (IH o (e +:+ s +:+ NL) fs Hfs) as (c' & oc & Hsteps & Hterm).
    exists c', oc. split; [| done]. eapply rtc_l; [constructor | done].
  - destruct (IH (length fs) o e (fs ++ [(t, Some (fetch_events run t))]))
      as (c' & oc & Hsteps & Hterm).
    { apply Forall_app. split; [done |]. apply Forall_singleton. by eexists. }
    exists c', oc. split; [| done].
    eapply rtc_l; [apply step_submit |].
    eapply rtc_l; [| exact Hsteps].
    replace (fs ++ [(t, Some (fetch_events run t))])
      with (<[length fs := (t, Some (fetch_events run t))]> (fs ++ [(t, None)])).
    * apply step_worker. by apply list_lookup_middle.
    * by rewrite insert_app_r_alt, Nat.sub_diag.
  - destruct (fs !! fut) as [[t [[e0|s]|]]|] eqn:Hfut.
    + exists (Pool (Raise e0) o e fs), (Uncaught e0). split; [| done].
      by eapply rtc_once, step_result_raise.
    + destruct (IH s o e fs Hfs) as (c' & oc & Hsteps & Hterm).
      exists c', oc. split; [| done].
      eapply rtc_l; [by eapply step_result_value | done].
    + apply (Forall_lookup_1 _ _ _ _ Hfs) in Hfut. by destruct Hfut.
    + exists (Pool (Raise InvalidFuture) o e fs), (Uncaught InvalidFuture).
      split; [| done]. by eapply rtc_once, step_result_dangling.
Qed.

(** No deadlock: from every state of the pool the process can end. *)
Lemma pool_can_finish c :
  ∃ c' o, rtc (step run) c c' ∧ terminal c' o.
Proof.
  destruct c as [p o e fs].
  destruct (workers_settle p o e [] fs) as (fs' & Hsteps & Hfs').
  destruct (main_thread_finishes p o e fs' Hfs') as (c' & oc & Hsteps' & Hterm).
  exists c', oc. split; [| done]. by etrans.
Qed.
End pool.

(** ** Consequences of [script_run] *)

Section consequences.
Context (run : subprocess).
Context (account_personal account_work time_from time_to : string).

Local Abbreviation fetches := (labelled account_personal account_work time_from time_to).
Local Abbreviation extra_task :=
  (extra_target account_personal account_work time_from time_to).

Lemma valid_app l1 l2 : valid (l1 ++ l2) = valid l1 ++ valid l2.
Proof. apply List.filter_app. Qed.

Lemma malformed_app l1 l2 : malformed (l1 ++ l2) = malformed l1 ++ malformed l2.
Proof. apply List.filter_app. Qed.

Lemma length_valid_malformed l :
  length (valid l) + length (malformed l) = length l.
Proof.
  induction l as [|extra l IH]; [done |].
  unfold valid, malformed in *. simpl.
  destruct (contains_colon extra); simpl; lia.
Qed.

Lemma malformed_valid l : malformed (valid l) = [].
Proof.
  induction l as [|extra l IH]; [done |].
  unfold valid, malformed in *. simpl.
  destruct (contains_colon extra) eqn:Hextra; simpl; [| done].
  by rewrite Hextra.
Qed.

Lemma valid_valid l : valid (valid l) = valid l.
Proof.
  induction l as [|extra l IH]; [done |].
  unfold valid in *. simpl.
  destruct (contains_colon extra) eqn:Hextra; simpl; [| done].
  by rewrite Hextra, IH.
Qed.

Lemma warnings_app l1 l2 : warnings (l1 ++ l2) = warnings l1 +:+ warnings l2.
Proof.
  induction l1 as [|extra l1 IH]; [done |].
  simpl. by rewrite IH, !append_assoc.
Qed.

Lemma sections_app l1 l2 : sections (l1 ++ l2) = sections l1 +:+ sections l2.
Proof.
  induction l1 as [|[marker text] l1 IH]; [done |].
  simpl. by rewrite IH, !append_assoc.
Qed.

Lemma length_labelled l : length (fetches l) = 2 + length (valid l).
Proof. unfold labelled. simpl. by rewrite length_fmap. Qed.

Lemma labelled_middle before extra after :
  contains_colon extra = true →
  fetches (before ++ extra :: after)
  = fetches before ++
    (extra_marker (cal_id extra), extra_task extra) ::
    ((λ extra, (extra_marker (cal_id extra), extra_task extra)) <$> valid after).
Proof.
  intros Hextra. unfold labelled. rewrite valid_app.
  unfold valid at 2. simpl. rewrite Hextra.
  by rewrite fmap_app.
Qed.

(** When every task was launched, every section is printed. *)
Lemma collect_captured (l : list (string * target)) text :
  Forall (λ mt, captures run mt.2) l →
  collect ((λ mt, (mt.1, fetch_events run mt.2)) <$> l) text
  = (Returned (), text +:+ sections ((λ mt, (mt.1, captured run mt.2)) <$> l)).
Proof.
  revert text. induction l as [|[marker t] l IH]; intros text Hl.
  { simpl. by rewrite append_empty_r. }
  apply Forall_cons in Hl as [[result Hrun] Hl].
  simpl in *. unfold captured, fetch_events. rewrite Hrun.
  rewrite (IH _ Hl). by rewrite append_assoc.
Qed.

Lemma script_captured script_name extra_calendars :
  Forall (λ mt, captures run mt.2) (fetches extra_calendars) →
  script run
    (script_name :: account_personal :: account_work :: time_from :: time_to
       :: extra_calendars)
  = (Returned (),
     {| sys_stdout :=
          sections ((λ mt, (mt.1, captured run mt.2)) <$> fetches extra_calendars);
        sys_stderr := warnings (malformed extra_calendars);
        tasks := (λ mt, fetched run mt.2) <$> fetches extra_calendars |}).
Proof.
  intros Hall. rewrite script_run. cbv zeta.
  rewrite (collect_captured (fetches extra_calendars) "" Hall).
  by rewrite append_empty_l.
Qed.
(** The first fetch that raised ends the run: its marker is the last line
    printed and its exception is the outcome. *)
Lemma collect_raises (before after : list (string * target)) marker t e text :
  Forall (λ mt, captures run mt.2) before →
  fetch_events run t = inl e →
  collect ((λ mt, (mt.1, fetch_events run mt.2)) <$> before ++ (marker, t) :: after)
    text
  = (Uncaught e,
     text +:+ sections ((λ mt, (mt.1, captured run mt.2)) <$> before) +:+
     marker +:+ NL).
Proof.
  intros Hbefore Ht. revert text.
  induction before as [|[m t'] before IH]; intros text.
  { simpl. by rewrite Ht. }
  apply Forall_cons in Hbefore as [[result Hrun] Hbefore].
  simpl in *. unfold captured, fetch_events. rewrite Hrun.
  rewrite (IH Hbefore). by rewrite !append_assoc.
Qed.

Lemma script_raises script_name extra_calendars before after marker t e :
  fetches extra_calendars = before ++ (marker, t) :: after →
  Forall (λ mt, captures run mt.2) before →
  fetch_events run t = inl e →
  script run
    (script_name :: account_personal :: account_work :: time_from :: time_to
       :: extra_calendars)
  = (Uncaught e,
     {| sys_stdout :=
          sections ((λ mt, (mt.1, captured run mt.2)) <$> before) +:+
          marker +:+ NL;
        sys_stderr := warnings (malformed extra_calendars);
        tasks := (λ mt, fetched run mt.2) <$> fetches extra_calendars |}).
Proof.
  intros Hsplit Hbefore Ht. rewrite script_run. cbv zeta.
  rewrite Hsplit at 1 2.
  rewrite (collect_raises before after marker t e "" Hbefore Ht).
  by rewrite append_empty_l.
Qed.

(** The tasks handed to the executor, in submission order. *)
Lemma script_tasks script_name extra_calendars :
  (tasks (script run
     (script_name :: account_personal :: account_work :: time_from :: time_to
        :: extra_calendars)).2).*1
  = (fetches extra_calendars).*2.
Proof.
  rewrite script_run. cbv zeta. cbn [snd tasks].
  rewrite <-list_fmap_compose. done.
Qed.

(** The task of a well-formed specifier sits after those of the
    well-formed specifiers before it. *)
Lemma script_task_of_extra script_name before extra after :
  contains_colon extra = true →
  (tasks (script run
     (script_name :: account_personal :: account_work :: time_from :: time_to
        :: before ++ extra :: after)).2).*1 !! (2 + length (valid before))
  = Some (extra_task extra).
Proof.
  intros Hextra. rewrite script_tasks, (labelled_middle _ _ _ Hextra).
  rewrite fmap_app, fmap_cons. cbn [snd].
  rewrite <-length_labelled, <-(length_fmap snd).
  by apply list_lookup_middle.
Qed.

Lemma script_task_of_only_extra script_name extra :
  contains_colon extra = true →
  (tasks (script run
     [script_name; account_personal; account_work; time_from; time_to; extra]).2).*1
    !! 2
  = Some (extra_task extra).
Proof. apply (script_task_of_extra script_name [] extra []). Qed.
End consequences.

Lemma collect_not_exited l text code : (collect l text).1 ≠ Exited code.
Proof.
  revert text. induction l as [|[marker [e|r]] l IH]; intros text; simpl; try done.
Qed.

(** A run depends on the tool only through what [fetch_events] returns. *)
Lemma exec_ext {A : Type} (run run' : subprocess) (p : py A) (w : world) :
  (∀ t, fetch_events run t = fetch_events run' t) →
  exec run p w = exec run' p w.
Proof.
  intros Hext. revert w.
  induction p as [a|e|code|s k IH|s k IH|t k IH|fut k IH]; intros w; simpl;
    try done.
  - by rewrite Hext.
  - destruct (_ !! _) as [[t [e|s]]|]; done.
Qed.

Lemma fetch_events_succeeding run t :
  fetch_events (succeeding run) t = fetch_events run t.
Proof. unfold fetch_events, succeeding. by destruct (run (fetch_cmd t)). Qed.

Lemma collect_extends (l : list (string * (exn + string))) text :
  ∃ rest, (collect l text).2 = text +:+ rest.
Proof.
  revert text. induction l as [|[marker [e|r]] l IH]; intros text; simpl.
  - exists "". by rewrite append_empty_r.
  - by eexists.
  - destruct (IH (text +:+ section marker r)) as [rest ->].
    exists (section marker r +:+ rest). by rewrite append_assoc.
Qed.

(** When the fetches before it returned, a fetch's marker line is printed
    right after their sections, whatever it and the later fetches do. *)
Lemma collect_reaches run (before : list (string * target)) marker r
    (l : list (string * (exn + string))) text :
  Forall (λ mt, captures run mt.2) before →
  ∃ rest,
    (collect (((λ mt, (mt.1, fetch_events run mt.2)) <$> before) ++ (marker, r) :: l)
       text).2
    = text +:+ sections ((λ mt, (mt.1, captured run mt.2)) <$> before) +:+
      marker +:+ NL +:+ rest.
Proof.
  intros Hbefore. revert text.
  induction before as [|[m t] before IH]; intros text.
  - destruct r as [e|s]; simpl.
    + exists "". by rewrite append_empty_r.
    + destruct (collect_extends l (text +:+ section marker s)) as [rest ->].
      exists (s +:+ NL +:+ rest). unfold section. by rewrite !append_assoc.
  - apply Forall_cons in Hbefore as [[result Hrun] Hbefore].
    destruct (IH Hbefore (text +:+ section m (stdout result))) as [rest Hrest].
    exists rest. rewrite !fmap_cons, <-app_comm_cons. cbn [fst snd].
    unfold captured at 1. unfold fetch_events at 1 3. simpl in Hrun.
    rewrite Hrun. cbn [collect sections]. rewrite Hrest.
    by rewrite !append_assoc.
Qed.

Lemma script_reaches run P W F T script_name before extra after :
  contains_colon extra = true →
  Forall (λ mt, captures run mt.2) (labelled P W F T before) →
  ∃ rest,
    sys_stdout (script run
      (script_name :: P :: W :: F :: T :: before ++ extra :: after)).2
    = sections ((λ mt, (mt.1, captured run mt.2)) <$> labelled P W F T before) +:+
      extra_marker (cal_id extra) +:+ NL +:+ rest.
Proof.
  intros Hextra Hbefore. rewrite script_run. cbv zeta. cbn [snd sys_stdout].
  rewrite (labelled_middle _ _ _ _ _ _ _ Hextra), fmap_app, fmap_cons.
  destruct (collect_reaches run (labelled P W F T before)
              (extra_marker (cal_id extra))
              (fetch_events run (extra_target P W F T extra))
              ((λ mt, (mt.1, fetch_events run mt.2)) <$>
                 ((λ extra, (extra_marker (cal_id extra),
                             extra_target P W F T extra)) <$> valid after))
              "" Hbefore) as [rest Hrest].
  exists rest. cbn [fst snd]. rewrite Hrest. by rewrite append_empty_l.
Qed.

(** * The properties of the specification *)

(** C2: for every account A, bounds F and T and calendar ID C, the command
    builder yields exactly [gog calendar events [C] --account A --from F
    --to T --max 50 --json]: without the positional C when C is empty, with C
    right after [calendar events] when it is not; A, F and T are copied into
    the vector as they are, whatever they contain. *)
Theorem fetch_cmd_vector (A F T : string) :
  fetch_cmd (Build_target A F T "")
  = ["gog"; "calendar"; "events";
     "--account"; A; "--from"; F; "--to"; T; "--max"; "50"; "--json"] ∧
  ∀ c C',
    fetch_cmd (Build_target A F T (String c C'))
    = ["gog"; "calendar"; "events"; String c C';
       "--account"; A; "--from"; F; "--to"; T; "--max"; "50"; "--json"].
Proof. split; [reflexivity | intros c C'; reflexivity]. Qed.

(** C3: with fewer than 4 positional arguments the script exits with status
    1, writes the usage line (which starts with [Usage:]) to the error stream,
    writes nothing to standard output and launches no subprocess; with 4 or
    more the check passes: the run does not end in [sys.exit], the error
    stream holds only the warnings for malformed specifiers, and the personal
    and work fetches are launched. *)
Theorem usage_on_too_few_arguments (run : subprocess) (argv : list string) :
  let r := script run argv in
  if bool_decide (length (positional argv) < 4) then
    r.1 = Exited 1 ∧ exit_status r.1 = 1%Z ∧
    sys_stderr r.2 = USAGE +:+ NL ∧ (∃ rest, USAGE = "Usage:" +:+ rest) ∧
    sys_stdout r.2 = "" ∧ launched r.2 = []
  else
    (∀ code, r.1 ≠ Exited code) ∧
    ∃ P W F T extras,
      positional argv = P :: W :: F :: T :: extras ∧
      sys_stderr r.2 = warnings (malformed extras) ∧
      take 2 (launched r.2)
      = [fetch_cmd (Build_target P F T ""); fetch_cmd (Build_target W F T "")].
Proof.
  destruct argv as [|a0 [|P [|W [|F [|T extras]]]]];
    try (simpl; repeat split; try done; by eexists).
  rewrite bool_decide_eq_false_2 by (simpl; lia).
  cbv zeta. rewrite script_run. split.
  - intros code. apply collect_not_exited.
  - by exists P, W, F, T, extras.
Qed.

(** C6: a specifier with at least one colon is cut at its first colon only:
    it reads [key:cal] with no colon in [key], line 67 unpacks exactly [key]
    and [cal], and [cal], further colons included, is the calendar ID of the
    task submitted for it. *)
Theorem split_on_first_colon (extra : string) :
  contains_colon extra = true →
  ∃ key cal,
    extra = key +:+ String COLON cal ∧
    contains_colon key = false ∧
    split_colon_1 extra = [key; cal] ∧
    ∀ run script_name P W F T,
      calendar_id <$>
        (tasks (script run [script_name; P; W; F; T; extra]).2).*1 !! 2
      = Some cal.
Proof.
  intros Hextra.
  destruct (contains_colon_split _ Hextra) as (key & cal & -> & Hkey).
  exists key, cal. repeat split; [done | by apply split_colon_1_first |].
  intros run script_name P W F T.
  rewrite (script_task_of_only_extra run P W F T script_name _ Hextra).
  simpl. by rewrite cal_id_first.
Qed.

Lemma split_on_first_colon_personal_x_y :
  ∃ key cal,
    "personal:x:y" = key +:+ String COLON cal ∧
    contains_colon key = false ∧
    split_colon_1 "personal:x:y" = [key; cal] ∧
    ∀ run script_name P W F T,
      calendar_id <$>
        (tasks (script run [script_name; P; W; F; T; "personal:x:y"]).2).*1 !! 2
      = Some cal.
Proof. apply (split_on_first_colon "personal:x:y"). reflexivity. Defined.

Example split_personal_x_y :
  split_colon_1 "personal:x:y" = ["personal"; "x:y"] ∧
  ∀ run script_name P W F T,
    (tasks (script run [script_name; P; W; F; T; "personal:x:y"]).2).*1 !! 2
    = Some (Build_target P F T "x:y").
Proof.
  split; [reflexivity |]. intros run script_name P W F T.
  by rewrite (script_task_of_only_extra run P W F T script_name "personal:x:y").
Qed.

(** C4: for a specifier [key:cal] (no colon in [key]), wherever it stands
    among the extra specifiers, the task submitted for it fetches calendar
    [cal] with the account the prefix resolves to: the first positional
    argument for [personal], the second for [work], and [key] itself for any
    other prefix. *)
Theorem alias_resolution (run : subprocess)
    (script_name P W F T : string) (before after : list string)
    (key cal : string) :
  contains_colon key = false →
  let argv :=
    script_name :: P :: W :: F :: T :: before ++ (key +:+ String COLON cal) :: after in
  (tasks (script run argv).2).*1 !! (2 + length (valid before))
  = Some (Build_target (resolved P W key) F T cal) ∧
  dict_get (account_map P W) key key = resolved P W key ∧
  resolved P W "personal" = P ∧
  resolved P W "work" = W ∧
  (key = "personal" ∨ key = "work" ∨ resolved P W key = key).
Proof.
  intros Hkey argv. repeat split.
  - unfold argv. rewrite script_task_of_extra
      by apply contains_colon_append_colon.
    unfold extra_target.
    by rewrite acct_key_first, cal_id_first, dict_get_account_map.
  - apply dict_get_account_map.
  - unfold resolved. repeat case_decide; auto.
Qed.

Lemma alias_resolution_work_cal123 :
  let argv := ["fetch_events.py"; "me@gmail.com"; "work@company.com";
               "2026-02-18"; "2026-02-22"; "oops"; "work:cal123"; "foo:bar"] in
  (tasks (script stub argv).2).*1 !! 2
  = Some (Build_target (resolved "me@gmail.com" "work@company.com" "work")
            "2026-02-18" "2026-02-22" "cal123") ∧
  dict_get (account_map "me@gmail.com" "work@company.com") "work" "work"
  = resolved "me@gmail.com" "work@company.com" "work" ∧
  resolved "me@gmail.com" "work@company.com" "personal" = "me@gmail.com" ∧
  resolved "me@gmail.com" "work@company.com" "work" = "work@company.com" ∧
  ("work" = "personal" ∨ "work" = "work" ∨
   resolved "me@gmail.com" "work@company.com" "work" = "work").
Proof.
  apply (alias_resolution stub "fetch_events.py" "me@gmail.com" "work@company.com"
           "2026-02-18" "2026-02-22" ["oops"] ["foo:bar"] "work" "cal123").
  reflexivity.
Defined.

(** C5: a specifier without a colon costs exactly one warning line, of the
    form [Warning: skipping invalid extra calendar '<spec>' (expected
    account:calendarId)], on the error stream, between the warnings of the
    specifiers before and after it; apart from that line the run is the run
    of the same invocation without the specifier: same standard output, same
    tasks, same outcome, so no task is made for it and the specifiers after
    it are still processed. *)
Theorem malformed_extra_skipped (run : subprocess)
    (script_name P W F T : string) (before after : list string) (extra : string) :
  contains_colon extra = false →
  let r := script run (script_name :: P :: W :: F :: T :: before ++ extra :: after) in
  let r' := script run (script_name :: P :: W :: F :: T :: before ++ after) in
  sys_stderr r.2
  = warnings (malformed before) +:+
    ("Warning: skipping invalid extra calendar '" +:+ extra +:+
     "' (expected account:calendarId)") +:+ NL +:+
    warnings (malformed after) ∧
  sys_stderr r'.2 = warnings (malformed before) +:+ warnings (malformed after) ∧
  sys_stdout r.2 = sys_stdout r'.2 ∧
  tasks r.2 = tasks r'.2 ∧
  r.1 = r'.1 ∧
  (tasks r.2).*1
  = Build_target P F T "" :: Build_target W F T "" ::
    (extra_target P W F T <$> valid before ++ valid after).
Proof.
  intros Hextra r r'.
  assert (valid (before ++ extra :: after) = valid (before ++ after)) as Hvalid.
  { rewrite !valid_app. unfold valid at 2. simpl. by rewrite Hextra. }
  assert (malformed (before ++ extra :: after)
          = malformed before ++ extra :: malformed after) as Hmal.
  { rewrite malformed_app. unfold malformed at 2. simpl. by rewrite Hextra. }
  unfold r, r'. rewrite !script_run. cbv zeta. cbn [fst snd].
  unfold labelled. rewrite Hvalid, Hmal, malformed_app, !warnings_app, valid_app.
  repeat split; try done.
  simpl. by rewrite <-!list_fmap_compose.
Qed.

Lemma malformed_extra_skipped_oops :
  let r := script stub ["fetch_events.py"; "personal"; "work"; "2026-02-20";
                        "2026-02-20"; "bad"; "oops"; "work:cal123"] in
  let r' := script stub ["fetch_events.py"; "personal"; "work"; "2026-02-20";
                         "2026-02-20"; "bad"; "work:cal123"] in
  sys_stderr r.2
  = warnings (malformed ["bad"]) +:+
    ("Warning: skipping invalid extra calendar '" +:+ "oops" +:+
     "' (expected account:calendarId)") +:+ NL +:+
    warnings (malformed ["work:cal123"]) ∧
  sys_stderr r'.2
  = warnings (malformed ["bad"]) +:+ warnings (malformed ["work:cal123"]) ∧
  sys_stdout r.2 = sys_stdout r'.2 ∧
  tasks r.2 = tasks r'.2 ∧
  r.1 = r'.1 ∧
  (tasks r.2).*1
  = Build_target "personal" "2026-02-20" "2026-02-20" "" ::
    Build_target "work" "2026-02-20" "2026-02-20" "" ::
    (extra_target "personal" "work" "2026-02-20" "2026-02-20"
       <$> valid ["bad"] ++ valid ["work:cal123"]).
Proof.
  apply (malformed_extra_skipped stub "fetch_events.py" "personal" "work"
           "2026-02-20" "2026-02-20" ["bad"] ["work:cal123"] "oops").
  reflexivity.
Defined.

(** C10: a specifier [key:] whose first colon is its last character passes
    the test of line 64; its calendar ID is the empty string, so the command
    of its task has no calendar-ID argument, and the marker printed for it is
    the literal [===EXTRA:===]: the line is written as soon as the fetches
    before it have returned, whatever its own fetch and the later ones do,
    and when every fetch returns it heads the section of its captured
    text. *)
Theorem trailing_colon_extra (run : subprocess)
    (script_name P W F T : string) (before after : list string) (key : string) :
  contains_colon key = false →
  let extra := key +:+ ":" in
  let argv := script_name :: P :: W :: F :: T :: before ++ extra :: after in
  let t := Build_target (resolved P W key) F T "" in
  contains_colon extra = true ∧
  split_colon_1 extra = [key; ""] ∧
  (tasks (script run argv).2).*1 !! (2 + length (valid before)) = Some t ∧
  fetch_cmd t
  = ["gog"; "calendar"; "events";
     "--account"; resolved P W key; "--from"; F; "--to"; T; "--max"; "50"; "--json"] ∧
  extra_marker (cal_id extra) = "===EXTRA:===" ∧
  (Forall (λ mt, captures run mt.2) (labelled P W F T before) →
   ∃ rest,
     sys_stdout (script run argv).2
     = sections ((λ mt, (mt.1, captured run mt.2)) <$> labelled P W F T before) +:+
       "===EXTRA:===" +:+ NL +:+ rest) ∧
  (Forall (λ mt, captures run mt.2) (labelled P W F T (before ++ extra :: after)) →
   sys_stdout (script run argv).2
   = sections ((λ mt, (mt.1, captured run mt.2)) <$> labelled P W F T before) +:+
     section "===EXTRA:===" (captured run t) +:+
     sections ((λ extra, (extra_marker (cal_id extra),
                          captured run (extra_target P W F T extra)))
                 <$> valid after)).
Proof.
  intros Hkey extra argv t.
  assert (contains_colon extra = true) as Hextra
    by apply contains_colon_append_colon.
  assert (cal_id extra = "") as Hcal by (by apply cal_id_first).
  assert (extra_target P W F T extra = t) as Ht.
  { unfold extra_target, extra.
    by rewrite acct_key_first, cal_id_first, dict_get_account_map. }
  repeat split.
  - done.
  - by apply split_colon_1_first.
  - unfold argv. by rewrite script_task_of_extra, Ht.
  - by rewrite Hcal.
  - intros Hbefore.
    destruct (script_reaches run P W F T script_name before extra after
                Hextra Hbefore) as [rest Hrest].
    exists rest. unfold argv. by rewrite Hrest, Hcal.
  - intros Hall. unfold argv. rewrite script_captured by done.
    cbn [snd sys_stdout].
    rewrite (labelled_middle _ _ _ _ _ _ _ Hextra).
    rewrite fmap_app, fmap_cons, sections_app. cbn [fst snd sections].
    rewrite Ht, Hcal. by rewrite <-list_fmap_compose.
Qed.

Lemma trailing_colon_extra_work :
  let argv := ["fetch_events.py"; "personal"; "work"; "2026-02-20"; "2026-02-20";
               "personal:a"; "work:"; "foo:b"] in
  let t := Build_target (resolved "personal" "work" "work")
             "2026-02-20" "2026-02-20" "" in
  contains_colon "work:" = true ∧
  split_colon_1 "work:" = ["work"; ""] ∧
  (tasks (script stub argv).2).*1 !! 3 = Some t ∧
  fetch_cmd t
  = ["gog"; "calendar"; "events";
     "--account"; resolved "personal" "work" "work";
     "--from"; "2026-02-20"; "--to"; "2026-02-20"; "--max"; "50"; "--json"] ∧
  extra_marker (cal_id "work:") = "===EXTRA:===" ∧
  (∃ rest,
     sys_stdout (script stub argv).2
     = sections ((λ mt, (mt.1, captured stub mt.2))
                   <$> labelled "personal" "work" "2026-02-20" "2026-02-20"
                         ["personal:a"]) +:+
       "===EXTRA:===" +:+ NL +:+ rest) ∧
  sys_stdout (script stub argv).2
  = sections ((λ mt, (mt.1, captured stub mt.2))
                <$> labelled "personal" "work" "2026-02-20" "2026-02-20"
                      ["personal:a"]) +:+
    section "===EXTRA:===" (captured stub t) +:+
    sections ((λ extra, (extra_marker (cal_id extra),
                         captured stub
                           (extra_target "personal" "work" "2026-02-20"
                              "2026-02-20" extra)))
                <$> valid ["foo:b"]).
Proof.
  intros argv t.
  pose proof (trailing_colon_extra stub "fetch_events.py" "personal" "work"
                "2026-02-20" "2026-02-20" ["personal:a"] ["foo:b"] "work" eq_refl)
    as H.
  cbv zeta in H. destruct H as (H1 & H2 & H3 & H4 & H5 & H6 & H7).
  split; [exact H1 |]. split; [exact H2 |]. split; [exact H3 |].
  split; [exact H4 |]. split; [exact H5 |]. split.
  - apply H6. repeat constructor; eexists; reflexivity.
  - apply H7. repeat constructor; eexists; reflexivity.
Defined.

(** C1, as the code has it: in an invocation with at least 4 positional
    arguments and N extra specifiers, M of them without a colon, in which
    every fetch was launched and its output captured, standard output is
    exactly 2 + (N - M) sections: [===PERSONAL===], then [===WORK===], then
    one [===EXTRA:<calendarId>===] per well-formed specifier in command-line
    order, each marker line followed at once by the captured text of its
    fetch. *)
Theorem sections_in_order (run : subprocess)
    (script_name P W F T : string) (extras : list string) :
  Forall (λ mt, captures run mt.2) (labelled P W F T extras) →
  let printed :=
    ("===PERSONAL===", captured run (Build_target P F T "")) ::
    ("===WORK===", captured run (Build_target W F T "")) ::
    ((λ extra, ("===EXTRA:" +:+ cal_id extra +:+ "===",
                captured run (extra_target P W F T extra)))
       <$> valid extras) in
  sys_stdout (script run (script_name :: P :: W :: F :: T :: extras)).2
  = sections printed ∧
  length printed = 2 + (length extras - length (malformed extras)) ∧
  sectioned printed.*1
    (sys_stdout (script run (script_name :: P :: W :: F :: T :: extras)).2).
Proof.
  intros Hall printed.
  assert (sys_stdout (script run (script_name :: P :: W :: F :: T :: extras)).2
          = sections printed) as Hout.
  { rewrite script_captured by done. cbn [snd sys_stdout].
    unfold labelled, printed. simpl. by rewrite <-list_fmap_compose. }
  split; [done |]. split.
  - unfold printed. simpl. rewrite length_fmap.
    pose proof (length_valid_malformed extras). lia.
  - exists printed.*2. split; [by rewrite !length_fmap |].
    by rewrite zip_fst_snd.
Qed.

Lemma sections_in_order_three :
  let run := stub in
  let printed :=
    ("===PERSONAL===",
     captured run (Build_target "personal" "2026-02-20" "2026-02-20" "")) ::
    ("===WORK===",
     captured run (Build_target "work" "2026-02-20" "2026-02-20" "")) ::
    ((λ extra, ("===EXTRA:" +:+ cal_id extra +:+ "===",
                captured run
                  (extra_target "personal" "work" "2026-02-20" "2026-02-20" extra)))
       <$> valid ["oops"; "work:cal123"]) in
  let argv := ["fetch_events.py"; "personal"; "work"; "2026-02-20"; "2026-02-20";
               "oops"; "work:cal123"] in
  sys_stdout (script run argv).2 = sections printed ∧
  length printed
  = 2 + (length ["oops"; "work:cal123"] - length (malformed ["oops"; "work:cal123"])) ∧
  sectioned printed.*1 (sys_stdout (script run argv).2).
Proof.
  apply (sections_in_order stub "fetch_events.py" "personal" "work"
           "2026-02-20" "2026-02-20" ["oops"; "work:cal123"]).
  repeat constructor; eexists; reflexivity.
Defined.

(** C1 as written fails when a fetch cannot be launched: with [gog] missing,
    an invocation with 4 positional arguments and no extra specifier writes
    the [===PERSONAL===] line and nothing more, which is not two sections. *)
Lemma sections_cut_short :
  let argv := ["fetch_events.py"; "personal"; "work"; "2026-02-20"; "2026-02-20"] in
  sys_stdout (script no_tool argv).2 = "===PERSONAL===" +:+ NL ∧
  ¬ sectioned ["===PERSONAL==="; "===WORK==="] (sys_stdout (script no_tool argv).2).
Proof.
  split; [reflexivity |].
  intros (texts & Hlen & Hout).
  destruct texts as [|p [|w [|]]]; try done.
  apply (f_equal String.length) in Hout.
  vm_compute script in Hout. simpl in Hout.
  unfold section in Hout. rewrite !length_append in Hout. simpl in Hout. lia.
Qed.

(** C7, as the code has it: in an invocation with at least 4 positional
    arguments in which every call of the tool returns, a failure of the tool
    (a non-zero exit status, text on its error stream, an empty or
    meaningless output) is not told apart from success: the run is the one
    that the same outputs with exit status 0 would give, each captured text,
    empty or not, is printed under its marker, the script returns normally
    and its exit status is 0. *)
Theorem completed_fetches_not_inspected (run : subprocess)
    (script_name P W F T : string) (extras : list string) :
  Forall (λ mt, captures run mt.2) (labelled P W F T extras) →
  let argv := script_name :: P :: W :: F :: T :: extras in
  let r := script run argv in
  r.1 = Returned () ∧
  exit_status r.1 = 0%Z ∧
  sys_stdout r.2
  = sections ((λ mt, (mt.1, captured run mt.2)) <$> labelled P W F T extras) ∧
  r = script (succeeding run) argv.
Proof.
  intros Hall argv r. unfold r, argv.
  rewrite (script_captured run P W F T script_name extras Hall).
  repeat split.
  rewrite <-(script_captured run P W F T script_name extras Hall).
  unfold script. apply exec_ext. intros t. by rewrite fetch_events_succeeding.
Qed.

(** A tool that fails on every call: exit status 1, nothing on standard
    output, a message on its error stream. *)
Lemma completed_fetches_not_inspected_failing :
  let run : subprocess := λ _,
    inr {| returncode := 1; stdout := ""; stderr := "gog: not logged in" |} in
  let argv := ["fetch_events.py"; "personal"; "work"; "2026-02-20"; "2026-02-20";
               "work:cal123"] in
  let r := script run argv in
  r.1 = Returned () ∧
  exit_status r.1 = 0%Z ∧
  sys_stdout r.2
  = sections ((λ mt, (mt.1, captured run mt.2))
                <$> labelled "personal" "work" "2026-02-20" "2026-02-20"
                      ["work:cal123"]) ∧
  r = script (succeeding run) argv.
Proof.
  intros run.
  apply (completed_fetches_not_inspected run "fetch_events.py" "personal" "work"
           "2026-02-20" "2026-02-20" ["work:cal123"]).
  repeat constructor; eexists; reflexivity.
Defined.

(** C7 as written fails for an exception raised while launching the process:
    with [gog] missing, [future_personal.result()] raises in the main thread
    after the first marker is printed; the script ends in a traceback, with a
    non-zero exit status. *)
Lemma launch_failure_surfaces :
  let argv := ["fetch_events.py"; "personal"; "work"; "2026-02-20"; "2026-02-20"] in
  let r := script no_tool argv in
  r.1 = Uncaught (OSError 2) ∧
  exit_status r.1 ≠ 0%Z ∧
  sys_stdout r.2 = "===PERSONAL===" +:+ NL ∧
  length (tasks r.2) = 2.
Proof. split; [reflexivity |]. split; [| split; reflexivity]. by vm_compute. Qed.

(** C8: [fetch_events personal work 2026-02-20 2026-02-20], with a tool that
    prints [P-DATA] for the personal fetch and [W-DATA] for the work fetch,
    writes exactly the four lines [===PERSONAL===], [P-DATA], [===WORK===],
    [W-DATA] on standard output. *)
Theorem end_to_end_example (run : subprocess) (script_name : string)
    (personal_result work_result : CompletedProcess) :
  run (fetch_cmd (Build_target "personal" "2026-02-20" "2026-02-20" ""))
  = inr personal_result →
  stdout personal_result = "P-DATA" →
  run (fetch_cmd (Build_target "work" "2026-02-20" "2026-02-20" ""))
  = inr work_result →
  stdout work_result = "W-DATA" →
  let r := script run [script_name; "personal"; "work"; "2026-02-20"; "2026-02-20"] in
  sys_stdout r.2 = unlines ["===PERSONAL==="; "P-DATA"; "===WORK==="; "W-DATA"] ∧
  sys_stderr r.2 = "" ∧
  r.1 = Returned ().
Proof.
  intros Hp Hpout Hw Hwout r. unfold r.
  rewrite script_captured.
  - unfold captured, fetch_events. simpl. unfold fetch_cmd. simpl.
    unfold fetch_cmd in Hp, Hw. simpl in Hp, Hw.
    by rewrite Hp, Hw, Hpout, Hwout.
  - repeat constructor; eexists; eassumption.
Qed.

Lemma end_to_end_example_stub :
  let r := script stub ["fetch_events.py"; "personal"; "work";
                        "2026-02-20"; "2026-02-20"] in
  sys_stdout r.2 = unlines ["===PERSONAL==="; "P-DATA"; "===WORK==="; "W-DATA"] ∧
  sys_stderr r.2 = "" ∧
  r.1 = Returned ().
Proof.
  apply (end_to_end_example stub "fetch_events.py"
           {| returncode := 0; stdout := "P-DATA"; stderr := "" |}
           {| returncode := 0; stdout := "W-DATA"; stderr := "" |});
    reflexivity.
Defined.

(** C9: with each subprocess call a function of its argument vector, the
    outcome, the complete text of standard output, the warning lines on the
    error stream and the tasks run are fixed by the command line and those
    per-command results: however the completions of the concurrent tasks
    interleave with the main thread, a finished process has exactly what the
    sequential reading of the script computes, so any two runs on the same
    inputs print the same. *)
Theorem completion_order_irrelevant (run : subprocess) (argv : list string)
    (c : pool) (o : outcome unit) :
  rtc (step run) (start argv) c →
  terminal c o →
  o = (script run argv).1 ∧
  out c = sys_stdout (script run argv).2 ∧
  err c = sys_stderr (script run argv).2 ∧
  futures c = done_task <$> tasks (script run argv).2.
Proof.
  intros Hsteps Hterm.
  destruct (pool_ends run argv c o Hsteps Hterm) as (Ho & Hout & Herr & Hfs).
  done.
Qed.

(** A schedule in which the work fetch completes before the personal one,
    and the personal one only after the first marker is printed. *)
Lemma completion_order_irrelevant_work_first :
  let argv := ["fetch_events.py"; "personal"; "work"; "2026-02-20"; "2026-02-20"] in
  let tp := Build_target "personal" "2026-02-20" "2026-02-20" "" in
  let tw := Build_target "work" "2026-02-20" "2026-02-20" "" in
  let c :=
    Pool (Return ())
      (unlines ["===PERSONAL==="; "P-DATA"; "===WORK==="; "W-DATA"]) ""
      [(tp, Some (inr "P-DATA")); (tw, Some (inr "W-DATA"))] in
  Returned () = (script stub argv).1 ∧
  out c = sys_stdout (script stub argv).2 ∧
  err c = sys_stderr (script stub argv).2 ∧
  futures c = done_task <$> tasks (script stub argv).2.
Proof.
  intros argv tp tw c.
  apply (completion_order_irrelevant stub argv c (Returned ())).
  - eapply rtc_l; [apply step_submit |].
    eapply rtc_l; [apply step_submit |].
    eapply rtc_l; [apply (step_worker stub 1 tw); reflexivity |].
    eapply rtc_l; [apply step_print |].
    eapply rtc_l; [apply (step_worker stub 0 tp); reflexivity |].
    eapply rtc_l; [eapply step_result_value; reflexivity |].
    eapply rtc_l; [apply step_print |].
    eapply rtc_l; [apply step_print |].
    eapply rtc_l; [eapply step_result_value; reflexivity |].
    eapply rtc_l; [apply step_print |].
    apply rtc_refl.
  - split; [reflexivity |]. repeat constructor; by eexists.
Defined.

(** * Further properties of the code *)

Section outcomes.
Context (run : subprocess).

Lemma fetch_events_raises t e :
  fetch_events run t = inl e ↔ run (fetch_cmd t) = inl e.
Proof.
  unfold fetch_events. destruct (run (fetch_cmd t)); split; congruence.
Qed.

Lemma collect_returned (l : list (string * target)) text :
  (collect ((λ mt, (mt.1, fetch_events run mt.2)) <$> l) text).1 = Returned ()
  ↔ Forall (λ mt, captures run mt.2) l.
Proof.
  revert text. induction l as [|[marker t] l IH]; intros text.
  { split; [constructor | done]. }
  rewrite Forall_cons. simpl. unfold captures at 1, fetch_events.
  destruct (run (fetch_cmd t)) as [e|result]; simpl.
  - split; [done |]. by intros [[? ?] _].
  - rewrite IH. split; [| by intros [_ ?]]. split; [by eexists | done].
Qed.

Lemma collect_starts marker r (l : list (string * (exn + string))) :
  ∃ rest, (collect ((marker, r) :: l) "").2 = marker +:+ NL +:+ rest.
Proof.
  destruct r as [e|s]; simpl.
  - exists "". by rewrite append_empty_l, append_empty_r.
  - destruct (collect_extends l ("" +:+ section marker s)) as [rest ->].
    exists (s +:+ NL +:+ rest).
    unfold section. by rewrite append_empty_l, !append_assoc.
Qed.

Lemma collect_uncaught (l : list (string * target)) text e :
  (collect ((λ mt, (mt.1, fetch_events run mt.2)) <$> l) text).1 = Uncaught e →
  ∃ mt, mt ∈ l ∧ fetch_events run mt.2 = inl e.
Proof.
  revert text. induction l as [|[marker t] l IH]; intros text; [done |].
  simpl. destruct (fetch_events run t) as [e'|r] eqn:Ht; simpl.
  - intros [= <-]. exists (marker, t). split; [by left | done].
  - intros (mt & Hin & Hmt)%IH. exists mt. split; [by right | done].
Qed.
End outcomes.

Lemma never_raises_bind {A B : Type} (m : py A) (f : A → py B) :
  never_raises m → (∀ a, never_raises (f a)) → never_raises (m ≫= f).
Proof.
  intros Hm Hf. induction m as [a|e|code|s k IH|s k IH|t k IH|fut k IH];
    simpl in *; try done.
  - by apply IH.
  - by apply IH.
  - intros fut. by apply IH.
  - intros r. by apply IH.
Qed.

Lemma never_raises_submit_extras accounts time_from time_to extra_calendars
    extra_futures :
  never_raises
    (submit_extras accounts time_from time_to extra_calendars extra_futures).
Proof.
  revert extra_futures.
  induction extra_calendars as [|extra rest IH]; intros extra_futures; [done |].
  simpl. destruct (contains_colon extra) eqn:Hextra; simpl; [| apply IH].
  rewrite (split_colon_1_valid _ Hextra). simpl. intros fut. apply IH.
Qed.

Lemma never_raises_print_extras extra_futures :
  never_raises (print_extras extra_futures).
Proof.
  induction extra_futures as [|[cal fut] rest IH]; [done |].
  simpl. intros r. apply IH.
Qed.

(** X1: the first fetch that raises ends the run.  The sections of the
    fetches before it are printed, then its marker line and nothing more;
    the output of the fetches after it is never printed although every one
    of them was launched; the warnings are all on the error stream; the
    script ends with that exception, exit status 1. *)
Theorem first_raising_fetch_ends_run (run : subprocess)
    (script_name P W F T : string) (extras : list string)
    (before after : list (string * target)) (marker : string) (t : target)
    (e : exn) :
  labelled P W F T extras = before ++ (marker, t) :: after →
  Forall (λ mt, captures run mt.2) before →
  run (fetch_cmd t) = inl e →
  let r := script run (script_name :: P :: W :: F :: T :: extras) in
  r.1 = Uncaught e ∧
  exit_status r.1 = 1%Z ∧
  sys_stdout r.2
  = sections ((λ mt, (mt.1, captured run mt.2)) <$> before) +:+ marker +:+ NL ∧
  sys_stderr r.2 = warnings (malformed extras) ∧
  launched r.2 = fetch_cmd <$> (before.*2 ++ t :: after.*2).
Proof.
  intros Hsplit Hbefore Ht%fetch_events_raises r. unfold r.
  rewrite (script_raises run P W F T script_name extras before after marker t e)
    by done.
  repeat split. unfold launched. cbn [snd tasks].
  rewrite Hsplit, !fmap_app, !fmap_cons, <-!list_fmap_compose.
  reflexivity.
Qed.

Lemma first_raising_fetch_ends_run_work_down :
  let argv := ["fetch_events.py"; "personal"; "work"; "2026-02-20"; "2026-02-20";
               "foo:cal"] in
  let tp := Build_target "personal" "2026-02-20" "2026-02-20" "" in
  let tw := Build_target "work" "2026-02-20" "2026-02-20" "" in
  let tf := Build_target "foo" "2026-02-20" "2026-02-20" "cal" in
  let r := script work_down argv in
  r.1 = Uncaught (OSError 13) ∧
  exit_status r.1 = 1%Z ∧
  sys_stdout r.2
  = sections ((λ mt, (mt.1, captured work_down mt.2)) <$> [("===PERSONAL===", tp)])
    +:+ "===WORK===" +:+ NL ∧
  sys_stderr r.2 = warnings (malformed ["foo:cal"]) ∧
  launched r.2 = fetch_cmd <$> ([("===PERSONAL===", tp)].*2 ++ tw :: [("===EXTRA:cal===", tf)].*2).
Proof.
  intros argv tp tw tf.
  apply (first_raising_fetch_ends_run work_down "fetch_events.py" "personal" "work"
           "2026-02-20" "2026-02-20" ["foo:cal"]
           [("===PERSONAL===", tp)] [("===EXTRA:cal===", tf)] "===WORK===" tw
           (OSError 13)).
  - reflexivity.
  - repeat constructor. eexists. reflexivity.
  - reflexivity.
Defined.

(** X2: what is launched does not depend on what any fetch does.  Every
    invocation with at least 4 positional arguments hands the executor the
    personal fetch, the work fetch and one fetch per well-formed specifier,
    in that order, 2 + (N - M) in all, each recorded with its own result,
    also when fetches raise; and the first line on standard output is
    [===PERSONAL===] in every case. *)
Theorem launches_do_not_depend_on_results (run : subprocess)
    (script_name P W F T : string) (extras : list string) :
  let r := script run (script_name :: P :: W :: F :: T :: extras) in
  tasks r.2
  = fetched run <$>
      Build_target P F T "" :: Build_target W F T "" ::
      (extra_target P W F T <$> valid extras) ∧
  length (tasks r.2) = 2 + (length extras - length (malformed extras)) ∧
  ∃ rest, sys_stdout r.2 = "===PERSONAL===" +:+ NL +:+ rest.
Proof.
  intros r. unfold r. rewrite script_run. cbv zeta. cbn [snd tasks].
  repeat split.
  - unfold labelled. simpl. by rewrite <-!list_fmap_compose.
  - rewrite length_fmap, length_labelled.
    pose proof (length_valid_malformed extras). lia.
  - apply (collect_starts "===PERSONAL===").
Qed.

(** X4: the script has no failing step of its own.  With the test of line
    42 the indexing of lines 49-52 is in range, and with the test of line 64
    the unpacking of line 67 gets its two parts: for every command line, no
    path through [main] reaches an [IndexError] or a [ValueError] of these
    lines, whatever the executor and the futures give back. *)
Theorem main_never_raises (argv : list string) : never_raises (main argv).
Proof.
  unfold main. case_bool_decide as Hlen; [done |].
  destruct argv as [|a0 [|P [|W [|F [|T extras]]]]];
    try (simpl in Hlen; lia).
  simpl. intros future_personal future_work.
  apply (never_raises_bind (submit_extras _ _ _ _ _));
    [apply never_raises_submit_extras |].
  intros extra_futures. simpl. intros p w. apply never_raises_print_extras.
Qed.

(** X5: the command tells the fetch: two fetches with the same argument
    vector have the same account, bounds and calendar ID. *)
Theorem fetch_cmd_inj (t t' : target) :
  fetch_cmd t = fetch_cmd t' → t = t'.
Proof.
  destruct t as [a f u [|c cal]], t' as [a' f' u' [|c' cal']];
    unfold fetch_cmd; simpl; intros Heq; by simplify_eq.
Qed.

Lemma fetch_cmd_inj_same_vector :
  Build_target "work" "2026-02-18" "2026-02-22" "cal123"
  = Build_target "work" "2026-02-18" "2026-02-22" ("cal" +:+ "123").
Proof.
  apply (fetch_cmd_inj (Build_target "work" "2026-02-18" "2026-02-22" "cal123")).
  reflexivity.
Defined.

(** X6: [split(":", 1)] loses nothing and the test of line 64 decides its
    shape: joining the parts with a colon gives the specifier back; a
    specifier with a colon has exactly two parts, the first without a colon;
    one without has the single part that is itself, which line 67 could not
    unpack. *)
Theorem split_colon_1_join (s : string) :
  String.concat ":" (split_colon_1 s) = s ∧
  if contains_colon s
  then split_colon_1 s = [acct_key s; cal_id s] ∧ contains_colon (acct_key s) = false
  else split_colon_1 s = [s].
Proof.
  destruct (contains_colon s) eqn:Hs.
  - destruct (contains_colon_split s Hs) as (k & c & -> & Hk).
    rewrite acct_key_first, cal_id_first, split_colon_1_first by done.
    done.
  - rewrite split_colon_1_none by done. done.
Qed.

(** X7: the account part is not checked for being empty.  A specifier [:cal]
    that starts with a colon is well-formed for the script: wherever it
    stands, its task fetches calendar [cal] for the empty account, so the
    tool is run with [--account] followed by an empty argument; for the bare
    specifier [:] the calendar ID is omitted as well. *)
Theorem leading_colon_extra (run : subprocess)
    (script_name P W F T : string) (before after : list string) (cal : string) :
  let argv :=
    script_name :: P :: W :: F :: T :: before ++ String COLON cal :: after in
  (tasks (script run argv).2).*1 !! (2 + length (valid before))
  = Some (Build_target "" F T cal) ∧
  fetch_cmd (Build_target "" F T cal)
  = ["gog"; "calendar"; "events"] ++ (if truthy cal then [cal] else []) ++
    ["--account"; ""; "--from"; F; "--to"; T; "--max"; "50"; "--json"].
Proof.
  intros argv. split.
  - unfold argv. by rewrite script_task_of_extra.
  - by destruct cal.
Qed.

(** ** The order of the effects *)

Lemma only_prints_bind {A B : Type} (m : py A) (f : A → py B) :
  only_prints m → (∀ a, only_prints (f a)) → only_prints (m ≫= f).
Proof.
  intros Hm Hf. induction m as [a|e|code|s k IH|s k IH|t k IH|fut k IH];
    simpl in *; try done.
  - by apply IH.
  - intros r. by apply IH.
Qed.

Lemma prepares_first_bind {A B : Type} (m : py A) (f : A → py B) :
  no_print m → (∀ a, prepares_first (f a)) → prepares_first (m ≫= f).
Proof.
  intros Hm Hf. induction m as [a|e|code|s k IH|s k IH|t k IH|fut k IH];
    simpl in *; try done.
  - by apply IH.
  - intros fut. by apply IH.
  - intros r. by apply IH.
Qed.

Lemma no_print_submit_extras accounts time_from time_to extra_calendars extra_futures :
  no_print (submit_extras accounts time_from time_to extra_calendars extra_futures).
Proof.
  revert extra_futures.
  induction extra_calendars as [|extra rest IH]; intros extra_futures; [done |].
  simpl. destruct (contains_colon extra); simpl; [| apply IH].
  destruct (split_colon_1 extra) as [|k [|c [|]]]; try done.
  simpl. intros fut. apply IH.
Qed.

Lemma only_prints_print_extras extra_futures :
  only_prints (print_extras extra_futures).
Proof.
  induction extra_futures as [|[cal fut] rest IH]; [done |].
  simpl. intros r. apply IH.
Qed.

Lemma prepares_first_main argv : prepares_first (main argv).
Proof.
  unfold main. case_bool_decide; [done |].
  destruct argv as [|a0 [|P [|W [|F [|T extras]]]]]; try done.
  simpl. intros future_personal future_work.
  apply (prepares_first_bind (submit_extras _ _ _ _ _));
    [apply no_print_submit_extras |].
  intros extra_futures. simpl. intros p w. apply only_prints_print_extras.
Qed.

Section order.
Context (run : subprocess).

Lemma only_prints_step c c' :
  step run c c' →
  only_prints (main_thread c) →
  only_prints (main_thread c') ∧ err c' = err c ∧
  (futures c').*1 = (futures c).*1.
Proof.
  destruct 1 as [s k o e fs|s k o e fs|t k o e fs|fut k o e fs t s Hfut
                |fut k o e fs t e0 Hfut|fut k o e fs Hfut|i t p o e fs Hi];
    simpl; try done.
  intros Hp. repeat split; [done |].
  rewrite list_fmap_insert. simpl. apply list_insert_id.
  by rewrite list_lookup_fmap, Hi.
Qed.

Lemma only_prints_steps c c' :
  rtc (step run) c c' →
  only_prints (main_thread c) →
  only_prints (main_thread c') ∧ err c' = err c ∧
  (futures c').*1 = (futures c).*1.
Proof.
  induction 1 as [c|c c1 c' Hstep _ IH]; intros Hc; [done |].
  destruct (only_prints_step _ _ Hstep Hc) as (Hc1 & Herr & Hfs).
  destruct (IH Hc1) as (Hc' & Herr' & Hfs'). repeat split; congruence.
Qed.

Lemma in_order_step c c' : step run c c' → in_order c → in_order c'.
Proof.
  intros Hstep [Hc|[Hout Hc]].
  { left. by apply (only_prints_step _ _ Hstep). }
  destruct Hstep as [s k o e fs|s k o e fs|t k o e fs|fut k o e fs t s Hfut
                    |fut k o e fs t e0 Hfut|fut k o e fs Hfut|i t p o e fs Hi];
    simpl in *.
  - by left.
  - by right.
  - right. split; [done | apply Hc].
  - right. split; [done | apply Hc].
  - by left.
  - by left.
  - by right.
Qed.

Lemma in_order_steps c c' : rtc (step run) c c' → in_order c → in_order c'.
Proof. induction 1; eauto using in_order_step. Qed.
End order.

(** X8: the warnings and the submissions all come before the first line of
    standard output.  In every run of the pool, once something has been
    written to standard output, what is left of [main] makes no
    [print(..., file=sys.stderr)] and no [executor.submit], whatever the
    futures give back, and the tasks of the executor stay the same, in
    whatever order they complete. *)
Theorem nothing_but_results_after_first_line (run : subprocess)
    (argv : list string) (c c' : pool) :
  rtc (step run) (start argv) c →
  out c ≠ "" →
  rtc (step run) c c' →
  only_prints (main_thread c') ∧ (futures c').*1 = (futures c).*1.
Proof.
  intros Hsteps Hout Hsteps'.
  assert (in_order c) as [Hc|[? _]]; [| | done].
  { apply (in_order_steps run _ _ Hsteps). right.
    split; [done | apply prepares_first_main]. }
  destruct (only_prints_steps run _ _ Hsteps' Hc) as (Hc' & _ & Hfs).
  done.
Qed.

Lemma next_step run c a : next run c a = c ∨ step run c (next run c a).
Proof.
  destruct c as [p o e fs], a as [|i]; simpl.
  - destruct p as [x|e0|code|s k|s k|t k|fut k];
      try (by left); try (right; by constructor).
    destruct (fs !! fut) as [[t [[e0|s]|]]|] eqn:Hfut.
    + right. by eapply step_result_raise.
    + right. by eapply step_result_value.
    + by left.
    + right. by apply step_result_dangling.
  - destruct (fs !! i) as [[t [r|]]|] eqn:Hi; try (by left).
    right. by apply step_worker.
Qed.

Lemma rtc_after run schedule c : rtc (step run) c (after run schedule c).
Proof.
  revert c. induction schedule as [|a schedule IH]; intros c; [done |].
  unfold after. simpl. destruct (next_step run c a) as [->|Hstep]; [apply IH |].
  eapply rtc_l; [done | apply IH].
Qed.

Lemma nothing_but_results_after_first_line_oops :
  let argv := ["fetch_events.py"; "personal"; "work"; "2026-02-20"; "2026-02-20";
               "oops"] in
  let c := after stub [Main; Main; Worker 1; Main; Main] (start argv) in
  let c' := after stub [Worker 0; Main; Main; Main; Main; Main] c in
  out c = "===PERSONAL===" +:+ NL ∧
  out c' = unlines ["===PERSONAL==="; "P-DATA"; "===WORK==="; "W-DATA"] ∧
  only_prints (main_thread c') ∧ (futures c').*1 = (futures c).*1.
Proof.
  intros argv c c'. split; [reflexivity |]. split; [reflexivity |].
  apply (nothing_but_results_after_first_line stub argv c c').
  - apply rtc_after.
  - by vm_compute.
  - apply rtc_after.
Defined.

(** X9: the script cannot block itself.  From every state a run of the pool
    can reach, whichever tasks are still pending, the run can go on to its
    end, and there it has the outcome and the output of the sequential
    reading. *)
Theorem run_can_always_finish (run : subprocess) (argv : list string) (c : pool) :
  rtc (step run) (start argv) c →
  ∃ c' o,
    rtc (step run) c c' ∧ terminal c' o ∧
    o = (script run argv).1 ∧
    out c' = sys_stdout (script run argv).2 ∧
    err c' = sys_stderr (script run argv).2.
Proof.
  intros Hsteps.
  destruct (pool_can_finish run c) as (c' & o & Hsteps' & Hterm).
  exists c', o. split; [done |]. split; [done |].
  destruct (pool_ends run argv c' o) as (Ho & Hout & Herr & _);
    [by etrans | done | done].
Qed.

(** The main thread waits for the personal fetch while only the work fetch
    has completed. *)
Lemma run_can_always_finish_blocked :
  let argv := ["fetch_events.py"; "personal"; "work"; "2026-02-20"; "2026-02-20"] in
  let c := after stub [Main; Main; Worker 1; Main; Main] (start argv) in
  ∃ c' o,
    rtc (step stub) c c' ∧ terminal c' o ∧
    o = (script stub argv).1 ∧
    out c' = sys_stdout (script stub argv).2 ∧
    err c' = sys_stderr (script stub argv).2.
Proof.
  intros argv c.
  apply (run_can_always_finish stub argv c). apply rtc_after.
Defined.
